(** * Facility location: gain kernels, initializer and committer

    A shallow embedding of [apricot/facilityLocation.py].

    Numbers.  The source computes in float64.  Here a float64 value is a
    rational ([Q]) and the arithmetic is exact: rounding, NaN, the
    infinities and the reassociation that [fastmath=True] allows are not
    modelled.  Equality of computed values is therefore [Qeq] ([==]).

    Arrays.  A one-dimensional ndarray is a list, a two-dimensional ndarray
    a list of rows, a [csr_matrix] a record of its three arrays and its
    shape.  Indexing follows numpy and numba: a negative index counts from
    the end.  An index out of range raises [IndexError] (numba does not
    check bounds; the model treats that case as the same error).

    State.  The attributes of the selection object the source reads or
    writes form the record [Selection]; a method is a function from the
    object to an outcome and the object as the call leaves it, also when
    the call raises. *)

From Stdlib Require Import String.
From Stdlib Require Import List ZArith QArith Qabs Qminmax Bool Lia Lqa Permutation.
Import ListNotations.

Local Open Scope Z_scope.
Local Open Scope Q_scope.

(** ** Errors *)

Inductive exn : Type :=
| ValueError (msg : string)
| IndexError
| AttributeError
| TypeError.

Inductive result (A : Type) : Type :=
| Ok (a : A)
| Raise (e : exn).
Arguments Ok {A} a.
Arguments Raise {A} e.

Definition ebind {A B} (r : result A) (k : A -> result B) : result B :=
  match r with
  | Ok a => k a
  | Raise e => Raise e
  end.

Declare Scope err_scope.
Delimit Scope err_scope with err.
Notation "x <- c ;; k" := (ebind c (fun x => k))
  (at level 61, c at next level, right associativity) : err_scope.
Local Open Scope err_scope.

(** ** ndarray primitives *)

(** [a[i]] for a signed index [i]: negative indices wrap around once. *)
Definition getitem {A} (a : list A) (i : Z) : result A :=
  let n := Z.of_nat (length a) in
  let i' := if (i <? 0)%Z then (i + n)%Z else i in
  if ((0 <=? i') && (i' <? n))%Z
  then match nth_error a (Z.to_nat i') with
       | Some x => Ok x
       | None => Raise IndexError
       end
  else Raise IndexError.

Fixpoint zip_with {A B C} (f : A -> B -> C) (a : list A) (b : list B) : list C :=
  match a, b with
  | x :: a', y :: b' => f x y :: zip_with f a' b'
  | _, _ => []
  end.

(** Binary ufunc on two one-dimensional arrays, with numpy's broadcasting:
    equal shapes go entry by entry, a shape of one entry is stretched,
    anything else is an error. *)
Definition broadcast2 {A B C} (f : A -> B -> C) (a : list A) (b : list B)
  : result (list C) :=
  if Nat.eqb (length a) (length b) then Ok (zip_with f a b)
  else match a, b with
       | [x], _ => Ok (map (f x) b)
       | _, [y] => Ok (map (fun x => f x y) a)
       | _, _ => Raise (ValueError "operands could not be broadcast together")
       end.

(** [numpy.maximum(a, b)] *)
Definition maximum (a b : list Q) : result (list Q) := broadcast2 Qmax a b.

(** [a.sum()] *)
Definition sum (a : list Q) : Q := fold_right Qplus 0 a.

(** [numpy.zeros(n)] *)
Definition zeros (n : nat) : list Q := repeat 0 n.

(** [a -= c] for a scalar [c] *)
Definition isub_scalar (a : list Q) (c : Q) : list Q := map (fun g => g - c) a.

(** [a[:] = b]: [b] must have the shape of [a] or a single entry. *)
Definition assign_slice (a b : list Q) : result (list Q) :=
  if Nat.eqb (length b) (length a) then Ok b
  else match b with
       | [y] => Ok (map (fun _ => y) a)
       | _ => Raise (ValueError "could not broadcast input array")
       end.

(** [argmax(a)]: the first position of the largest entry. *)
Fixpoint argmax_from (best : Q) (besti : nat) (i : nat) (a : list Q) : nat :=
  match a with
  | [] => besti
  | x :: a' =>
      match Qcompare best x with
      | Lt => argmax_from x i (S i) a'
      | _ => argmax_from best besti (S i) a'
      end
  end.

Definition argmax (a : list Q) : result Z :=
  match a with
  | [] => Raise (ValueError "attempt to get argmax of an empty sequence")
  | x :: a' => Ok (Z.of_nat (argmax_from x 0%nat 1%nat a'))
  end.

(** ** Similarity matrices *)

Record csr_matrix : Type := {
  data : list Q;
  indices : list Z;
  indptr : list Z;
  shape : nat * nat
}.

(** [X_pairwise] is bound to a two-dimensional ndarray or to a
    [csr_matrix] in [_initialize] and [_calculate_gains]. *)
Inductive matrix : Type :=
| Dense (m : list (list Q))
| Sparse (c : csr_matrix).

(** In [_select_next], [X_pairwise] is one row of the matrix: a
    one-dimensional ndarray, or a [csr_matrix] of one row. *)
Inductive row : Type :=
| DenseRow (v : list Q)
| SparseRow (c : csr_matrix).

(** [X.shape[1]] *)
Definition ncols (X : matrix) : nat :=
  match X with
  | Dense m => match m with [] => 0%nat | r :: _ => length r end
  | Sparse c => snd (shape c)
  end.

(** [a[s:e]] for [0 <= s]. *)
Definition slice {A} (a : list A) (s e : Z) : list A :=
  firstn (Z.to_nat (e - s)) (skipn (Z.to_nat s) a).

(** [v[k] += x]; a column outside of the row is left out (a well-formed
    [csr_matrix] has none). *)
Fixpoint add_at (k : nat) (x : Q) (v : list Q) : list Q :=
  match v, k with
  | [], _ => []
  | y :: v', O => (y + x) :: v'
  | y :: v', S k' => y :: add_at k' x v'
  end.

Definition scatter (n : nat) (cols : list Z) (vals : list Q) : list Q :=
  fold_left (fun v kx => if (fst kx <? 0)%Z then v
                         else add_at (Z.to_nat (fst kx)) (snd kx) v)
            (combine cols vals) (zeros n).

(** [c.toarray()]: one dense row per stored row, duplicates summed. *)
Definition toarray (c : csr_matrix) : list (list Q) :=
  map (fun r : nat =>
         let s := nth r (indptr c) 0%Z in
         let e := nth (S r) (indptr c) 0%Z in
         scatter (snd (shape c)) (slice (indices c) s e) (slice (data c) s e))
      (seq 0 (fst (shape c))).

(** [c[i]] for an integer [i]: the [csr_matrix] of the one row [i]. *)
Definition csr_getrow (c : csr_matrix) (i : Z) : result csr_matrix :=
  let n := Z.of_nat (fst (shape c)) in
  let i' := if (i <? 0)%Z then (i + n)%Z else i in
  if ((0 <=? i') && (i' <? n))%Z
  then s <- getitem (indptr c) i' ;;
       e <- getitem (indptr c) (i' + 1)%Z ;;
       Ok {| data := slice (data c) s e;
             indices := slice (indices c) s e;
             indptr := [0%Z; (e - s)%Z];
             shape := (1%nat, snd (shape c)) |}
  else Raise IndexError.

(** [csr_matrix(X)] for a dense [X]: the stored entries of a row are its
    entries that are not zero, by increasing column. *)
Fixpoint nonzeros (k : Z) (r : list Q) : list (Z * Q) :=
  match r with
  | [] => []
  | x :: r' => if Qeq_bool x 0 then nonzeros (k + 1)%Z r'
               else (k, x) :: nonzeros (k + 1)%Z r'
  end.

Fixpoint row_starts (start : Z) (m : list (list Q)) : list Z :=
  match m with
  | [] => [start]
  | r :: m' => start :: row_starts (start + Z.of_nat (length (nonzeros 0 r)))%Z m'
  end.

Definition csr_of_dense (m : list (list Q)) : csr_matrix :=
  {| data := concat (map (fun r => map snd (nonzeros 0 r)) m);
     indices := concat (map (fun r => map fst (nonzeros 0 r)) m);
     indptr := row_starts 0 m;
     shape := (length m, ncols (Dense m)) |}.

(** ** The kernels *)

(** [select_next]: [gains[i] = numpy.maximum(X[idxs[i]], current_values).sum()]
    for every position [i] of [idxs].  The iterations of the [prange] loop
    write distinct entries, so their order does not matter. *)
Fixpoint select_next (X : list (list Q)) (gains current_values : list Q)
  (idxs : list Z) : result (list Q) :=
  match idxs with
  | [] => Ok gains
  | idx :: idxs' =>
      match gains with
      | [] => Raise IndexError
      | _ :: gains' =>
          r <- getitem X idx ;;
          m <- maximum r current_values ;;
          rest <- select_next X gains' current_values idxs' ;;
          Ok (sum m :: rest)
      end
  end.

(** The inner loop of [select_next_sparse], [for j in range(start, end)],
    with [n] iterations left and [g] the running value of [gains[i]]. *)
Fixpoint sparse_row (X_data : list Q) (X_indices : list Z)
  (current_values : list Q) (j : Z) (n : nat) (g : Q) : result Q :=
  match n with
  | O => Ok g
  | S n' =>
      k <- getitem X_indices j ;;
      x <- getitem X_data j ;;
      c <- getitem current_values k ;;
      sparse_row X_data X_indices current_values (j + 1)%Z n' (g + Qmax x c)
  end.

Fixpoint select_next_sparse (X_data : list Q) (X_indices X_indptr : list Z)
  (gains current_values : list Q) (idxs : list Z) : result (list Q) :=
  match idxs with
  | [] => Ok gains
  | idx :: idxs' =>
      match gains with
      | [] => Raise IndexError
      | g :: gains' =>
          start <- getitem X_indptr idx ;;
          end_ <- getitem X_indptr (idx + 1)%Z ;;
          g' <- sparse_row X_data X_indices current_values start
                  (Z.to_nat (end_ - start)) g ;;
          rest <- select_next_sparse X_data X_indices X_indptr gains'
                    current_values idxs' ;;
          Ok (g' :: rest)
      end
  end.

Fixpoint map_result {A B} (f : A -> result B) (l : list A) : result (list B) :=
  match l with
  | [] => Ok []
  | x :: l' => y <- f x ;; ys <- map_result f l' ;; Ok (y :: ys)
  end.

(** [select_next_cupy]: the new contents of [gains] and the returned index.
    [cupy.maximum(X, current_values)] stretches [current_values] over the
    rows of [X]. *)
Definition select_next_cupy (X : list (list Q)) (gains current_values : list Q)
  (mask : list Z) : result (list Q * Z) :=
  mx <- map_result (fun r => maximum r current_values) X ;;
  gains <- assign_slice gains (map sum mx) ;;
  masked <- broadcast2 (fun g m => g * inject_Z (1 - m)) gains mask ;;
  gains <- assign_slice gains masked ;;
  best <- argmax gains ;;
  Ok (gains, best).

(** ** The selection object *)

(** [initial_subset]: an ndarray of any number of dimensions.  Only the
    one-dimensional case is iterated over. *)
Inductive subset_array : Type :=
| Subset0 (i : Z)
| Subset1 (l : list Z)
| Subset2 (examples : list (list Q))
| SubsetN (more : nat).

Definition ndim (s : subset_array) : nat :=
  match s with
  | Subset0 _ => 0
  | Subset1 _ => 1
  | Subset2 _ => 2
  | SubsetN more => 3 + more
  end.

Record Selection : Type := {
  sparse : bool;
  cupy : bool;
  initial_subset : option subset_array;
  current_values : list Q;
  idxs : list Z;
  ranking : list Z;
  gains : list Q
}.

Definition set_current_values (v : list Q) (self : Selection) : Selection :=
  {| sparse := sparse self; cupy := cupy self;
     initial_subset := initial_subset self;
     current_values := v;
     idxs := idxs self; ranking := ranking self; gains := gains self |}.

Definition set_idxs (l : list Z) (self : Selection) : Selection :=
  {| sparse := sparse self; cupy := cupy self;
     initial_subset := initial_subset self;
     current_values := current_values self;
     idxs := l; ranking := ranking self; gains := gains self |}.

(** A method that assigns attributes: the outcome and the object after the
    call.  An exception leaves the assignments made before it in place. *)
Definition method (A : Type) : Type := Selection -> result A * Selection.

Definition outcome {A} (r : result A * Selection) : result A := fst r.
Definition after {A} (r : result A * Selection) : Selection := snd r.

(** Modelled from the spec: [BaseGraphSelection._initialize], which this
    source file calls and does not define.  The coverage vector is created
    zero-filled at run start, one entry per reference dimension. *)
Definition base_initialize (X_pairwise : matrix) (self : Selection) : Selection :=
  set_current_values (zeros (ncols X_pairwise)) self.

(** Modelled from the spec: [BaseGraphSelection._select_next], which this
    source file calls and does not define.  It records the index and the
    gain of the accepted round, in round order. *)
Definition base_select_next (X_pairwise : row) (gain : Q) (idx : Z)
  (self : Selection) : Selection :=
  {| sparse := sparse self; cupy := cupy self;
     initial_subset := initial_subset self;
     current_values := current_values self;
     idxs := idxs self;
     ranking := ranking self ++ [idx];
     gains := gains self ++ [gain] |}.

(** [X_pairwise[i]] in the dense branch of [_initialize]. *)
Definition dense_row (X_pairwise : matrix) (i : Z) : result (list Q) :=
  match X_pairwise with
  | Dense m => getitem m i
  | Sparse _ => Raise TypeError
  end.

(** [X_pairwise[i].toarray()[0]] in the sparse branch of [_initialize]. *)
Definition sparse_row_dense (X_pairwise : matrix) (i : Z) : result (list Q) :=
  match X_pairwise with
  | Dense _ => Raise AttributeError
  | Sparse c => r <- csr_getrow c i ;; getitem (toarray r) 0
  end.

(** [for i in self.initial_subset: self.current_values = numpy.maximum(
    <row i>, self.current_values)] *)
Fixpoint initialize_loop (row_of : Z -> result (list Q)) (subset : list Z)
  : method unit :=
  fun self =>
  match subset with
  | [] => (Ok tt, self)
  | i :: subset' =>
      match (r <- row_of i ;; maximum r (current_values self)) with
      | Ok v => initialize_loop row_of subset' (set_current_values v self)
      | Raise e => (Raise e, self)
      end
  end.

Definition subset_indices (s : subset_array) : list Z :=
  match s with
  | Subset1 l => l
  | _ => []
  end.

(** The messages of the two [ValueError]s of [_initialize]. *)
Definition not_indices : string :=
  "When using facility location, the initial subset must be a one dimensional array of indices.".

Definition not_an_array : string :=
  "The initial subset must be either a two dimensional matrix of examples or a one dimensional mask.".

Definition _initialize (X_pairwise : matrix) : method unit :=
  fun self =>
  let self := base_initialize X_pairwise self in
  match initial_subset self with
  | None => (Ok tt, self)
  | Some s =>
      if Nat.eqb (ndim s) 2 then
        (Raise (ValueError not_indices), self)
      else if Nat.eqb (ndim s) 1 then
        if negb (sparse self) then
          initialize_loop (dense_row X_pairwise) (subset_indices s) self
        else
          initialize_loop (sparse_row_dense X_pairwise) (subset_indices s) self
      else
        (Raise (ValueError not_an_array), self)
  end.

(** [_calculate_gains] assigns no attribute: it is a function of the
    object.  In the cupy branch the value [select_next_cupy] returns is
    dropped, and [self.idxs] is what is passed for [mask]. *)
Definition _calculate_gains (X_pairwise : matrix) (self : Selection)
  : result (list Q) :=
  gains <-
    (if cupy self then
       let gains := zeros (length (idxs self)) in
       match X_pairwise with
       | Dense m =>
           r <- select_next_cupy m gains (current_values self) (idxs self) ;;
           Ok (fst r)
       | Sparse _ => Raise TypeError
       end
     else
       let gains := zeros (length (idxs self)) in
       if sparse self then
         match X_pairwise with
         | Sparse c =>
             select_next_sparse (data c) (indices c) (indptr c) gains
               (current_values self) (idxs self)
         | Dense _ => Raise AttributeError
         end
       else
         match X_pairwise with
         | Dense m => select_next m gains (current_values self) (idxs self)
         | Sparse _ => Raise TypeError
         end) ;;
  Ok (isub_scalar gains (sum (current_values self))).

(** The first argument of [numpy.maximum] in [_select_next]:
    [X_pairwise.toarray()[0]] if [self.sparse], [X_pairwise] otherwise. *)
Definition committed_row (is_sparse : bool) (X_pairwise : row) : result (list Q) :=
  if is_sparse then
    match X_pairwise with
    | SparseRow c => getitem (toarray c) 0
    | DenseRow _ => Raise AttributeError
    end
  else
    match X_pairwise with
    | DenseRow v => Ok v
    | SparseRow _ => Raise TypeError
    end.

(** The right-hand side of the assignment to [self.current_values] in
    [_select_next]. *)
Definition committed_values (X_pairwise : row) (self : Selection) : result (list Q) :=
  r <- committed_row (sparse self) X_pairwise ;; maximum r (current_values self).

Definition _select_next (X_pairwise : row) (gain : Q) (idx : Z) : method unit :=
  fun self =>
  match committed_values X_pairwise self with
  | Ok v => (Ok tt, base_select_next X_pairwise gain idx (set_current_values v self))
  | Raise e => (Raise e, self)
  end.

(** A run of the committer: the object before the first call and after
    each call.  An exception ends the run. *)
Record commit : Type := {
  commit_row : row;
  commit_gain : Q;
  commit_idx : Z
}.

Fixpoint run_commits (calls : list commit) (self : Selection) : list Selection :=
  match calls with
  | [] => [self]
  | c :: calls' =>
      self ::
      match _select_next (commit_row c) (commit_gain c) (commit_idx c) self with
      | (Ok _, self') => run_commits calls' self'
      | (Raise _, self') => [self']
      end
  end.

(** ** The scenario of the specification *)

Definition X4 : list (list Q) :=
  [[5; 1; 0; 2]; [1; 4; 1; 0]; [0; 1; 3; 1]; [2; 0; 1; 6]].

Definition fresh (is_sparse : bool) (cv : list Q) (candidates : list Z) : Selection :=
  {| sparse := is_sparse; cupy := false; initial_subset := None;
     current_values := cv; idxs := candidates; ranking := []; gains := [] |}.

(** ** The vocabulary of the properties *)

(** Row [idx] of a dense matrix, for an index known to be in range. *)
Definition row_at (X : list (list Q)) (idx : Z) : list Q := nth (Z.to_nat idx) X [].

(** A candidate index that names a row, counted from the first. *)
Definition in_range {A} (X : list A) (idx : Z) : Prop :=
  (0 <= idx < Z.of_nat (length X))%Z.

(** Every row has one entry per entry of the coverage vector. *)
Definition conforms (X : list (list Q)) (current_values : list Q) : Prop :=
  Forall (fun r => length r = length current_values) X.

(** Every row of a dense matrix has the length of the first. *)
Definition rectangular (X : matrix) : Prop :=
  match X with
  | Dense m => Forall (fun r => length r = ncols X) m
  | Sparse _ => True
  end.


(** Two gains agree within the tolerance 1e-9. *)
Definition close (a b : Q) : Prop := Qabs (a - b) <= 1 # 1000000000.




(** [best] is a position of [a] that holds its largest entry, and the first
    such position. *)
Definition is_argmax (a : list Q) (best : nat) : Prop :=
  (best < length a)%nat /\
  forall j y, nth_error a j = Some y ->
              y <= nth best a 0 /\ ((j < best)%nat -> y < nth best a 0).

(** The coverage vector of the scenario after row 3 is committed. *)
Definition cv3 : list Q := [2; 0; 1; 6].




(** The number of entries [csr_of_dense] stores for the rows [m]. *)
Definition stored (m : list (list Q)) : nat :=
  length (concat (map (fun r => map snd (nonzeros 0 r)) m)).

(** The object with [initial_subset] set, as the constructor leaves it. *)
Definition with_subset (s : subset_array) (self : Selection) : Selection :=
  {| sparse := sparse self; cupy := cupy self;
     initial_subset := Some s;
     current_values := current_values self;
     idxs := idxs self; ranking := ranking self; gains := gains self |}.

(** The rows [l] of a dense matrix folded into a coverage vector, first to
    last, by the entrywise maximum. *)
Definition fold_rows (X : list (list Q)) (l : list Z) (cv : list Q) : list Q :=
  fold_left (fun cv i => zip_with Qmax (row_at X i) cv) l cv.

(** One commit per index of [l], each with the row of the index. *)
Definition commits_of (X : list (list Q)) (gain : Q) (l : list Z) : list commit :=
  map (fun i => {| commit_row := DenseRow (row_at X i); commit_gain := gain;
                   commit_idx := i |}) l.


(** The [csr_matrix] of one row that [csr_of_dense X][idx] is. *)
Definition encoded_row (X : list (list Q)) (idx : Z) : csr_matrix :=
  let stored_entries := nonzeros 0 (row_at X idx) in
  {| data := map snd stored_entries;
     indices := map fst stored_entries;
     indptr := [0%Z; Z.of_nat (length stored_entries)];
     shape := (1%nat, ncols (Dense X)) |}.

(** The two objects of the second round of the scenario, one per CPU path. *)
Definition dense3 : Selection := fresh false cv3 [0; 1; 2]%Z.

Definition sparse3 : Selection := fresh true cv3 [0; 1; 2]%Z.

(** The object of the scenario on the cupy branch, with the given [idxs]. *)
Definition on_gpu (candidates : list Z) : Selection :=
  {| sparse := false; cupy := true; initial_subset := None;
     current_values := cv3; idxs := candidates; ranking := []; gains := [] |}.

(** A matrix of negated distances: zero on the diagonal, negative off it. *)
Definition negated_distances : list (list Q) := [[0; -3 # 1]; [-3 # 1; 0]].

(** * Proofs *)

(** ** Indexing and broadcasting *)

Lemma getitem_in_range {A} (a : list A) (i : Z) (d : A) :
  (0 <= i < Z.of_nat (length a))%Z ->
  getitem a i = Ok (nth (Z.to_nat i) a d).
Proof.
  intros Hi. unfold getitem.
  destruct (Z.ltb_spec i 0); [lia|].
  destruct (Z.leb_spec 0 i); [|lia].
  destruct (Z.ltb_spec i (Z.of_nat (length a))); [|lia].
  cbn [andb].
  destruct (nth_error a (Z.to_nat i)) eqn:E.
  - now rewrite (nth_error_nth _ _ d E).
  - apply nth_error_None in E. lia.
Qed.

Lemma zip_with_length {A B C} (f : A -> B -> C) a b :
  length a = length b -> length (zip_with f a b) = length b.
Proof.
  revert b. induction a as [|x a IH]; intros [|y b]; cbn; try congruence.
  intros H. f_equal. apply IH. congruence.
Qed.

Lemma zip_with_map_l {A A' B C} (f : A' -> B -> C) (g : A -> A') a b :
  zip_with f (map g a) b = zip_with (fun x y => f (g x) y) a b.
Proof.
  revert b. induction a as [|x a IH]; intros [|y b]; cbn; try reflexivity.
  now rewrite IH.
Qed.

Lemma broadcast2_same_shape {A B C} (f : A -> B -> C) a b :
  length a = length b -> broadcast2 f a b = Ok (zip_with f a b).
Proof.
  intros H. unfold broadcast2. now rewrite H, Nat.eqb_refl.
Qed.

(** The three ways in which [broadcast2] returns. *)
Lemma broadcast2_Ok {A B C} (f : A -> B -> C) a b v :
  broadcast2 f a b = Ok v ->
  (length a = length b /\ v = zip_with f a b) \/
  (length a <> length b /\ exists x, a = [x] /\ v = map (f x) b) \/
  (length a <> length b /\ exists y, b = [y] /\ v = map (fun x => f x y) a).
Proof.
  unfold broadcast2.
  destruct (Nat.eqb_spec (length a) (length b)) as [E|E].
  - intros [= <-]. now left.
  - destruct a as [|x [|x' a]].
    + destruct b as [|y [|y' b]]; try discriminate.
      intros [= <-]. right. right. split; [exact E|]. now exists y.
    + intros [= <-]. right. left. split; [exact E|]. now exists x.
    + destruct b as [|y [|y' b]]; try discriminate.
      intros [= <-]. right. right. split; [exact E|]. now exists y.
Qed.

Lemma assign_slice_same_shape a b :
  length b = length a -> assign_slice a b = Ok b.
Proof.
  intros H. unfold assign_slice. now rewrite H, Nat.eqb_refl.
Qed.

Lemma map_result_total {A B} (f : A -> result B) (g : A -> B) l :
  Forall (fun x => f x = Ok (g x)) l -> map_result f l = Ok (map g l).
Proof.
  induction 1 as [|x l Hx _ IH]; cbn; [reflexivity|].
  now rewrite Hx, IH.
Qed.

(** ** Facts on [Qmax] and [sum] *)

Lemma Qcompare_refl (x : Q) : Qcompare x x = Eq.
Proof. apply Qeq_alt. reflexivity. Qed.

(** Both hold up to Leibniz equality: [Qmax] returns one of its arguments. *)
Lemma Qmax_absorb_l (x c : Q) : Qmax x (Qmax x c) = Qmax x c.
Proof.
  unfold Qmax, GenericMinMax.gmax.
  destruct (Qcompare x c) eqn:E; rewrite ?E, ?Qcompare_refl; reflexivity.
Qed.

Lemma Qmax_ge_r (x c : Q) : c <= Qmax x c.
Proof. apply Q.le_max_r. Qed.

Lemma sum_cons (x : Q) l : sum (x :: l) = x + sum l.
Proof. reflexivity. Qed.

Lemma sum_zeros n : sum (zeros n) == 0.
Proof.
  induction n as [|n IH]; cbn; [reflexivity|].
  fold (zeros n). fold (sum (zeros n)). rewrite IH. lra.
Qed.

Lemma sum_le_maximum r cv :
  length r = length cv -> sum cv <= sum (zip_with Qmax r cv).
Proof.
  revert cv. induction r as [|x r IH]; intros [|c cv] E; cbn [length] in E;
    try discriminate E.
  - apply Qle_refl.
  - injection E as H. cbn [zip_with]. rewrite !sum_cons.
    pose proof (Qmax_ge_r x c). specialize (IH cv H). lra.
Qed.



(** ** The dense path of [_calculate_gains] *)

Lemma conforms_row_at X cv idx :
  conforms X cv -> in_range X idx -> length (row_at X idx) = length cv.
Proof.
  intros HX Hi. unfold conforms in HX. rewrite Forall_forall in HX.
  apply HX. apply nth_In. unfold in_range in Hi. lia.
Qed.

Lemma select_next_dense X cv idxs gains :
  conforms X cv -> Forall (in_range X) idxs -> length gains = length idxs ->
  select_next X gains cv idxs =
  Ok (map (fun idx => sum (zip_with Qmax (row_at X idx) cv)) idxs).
Proof.
  intros HX Hidxs. revert gains.
  induction Hidxs as [|idx idxs Hi _ IH]; intros [|g gains] Hlen;
    cbn [length] in Hlen; try discriminate Hlen; [reflexivity|].
  cbn [select_next map].
  rewrite (getitem_in_range X idx [] Hi). cbn [ebind]. fold (row_at X idx).
  unfold maximum.
  rewrite broadcast2_same_shape by now apply conforms_row_at.
  cbn [ebind]. rewrite IH by congruence. reflexivity.
Qed.




Section DensePath.

(** A dense matrix on the CPU, rows of the shape of the coverage vector,
    candidates in range. *)
Variable X : list (list Q).
Variable self : Selection.
Hypothesis on_cpu : cupy self = false.
Hypothesis is_dense : sparse self = false.
Hypothesis shapes : conforms X (current_values self).
Hypothesis candidates : Forall (in_range X) (idxs self).

Lemma calculate_gains_dense :
  _calculate_gains (Dense X) self =
  Ok (map (fun idx => sum (zip_with Qmax (row_at X idx) (current_values self))
                      - sum (current_values self)) (idxs self)).
Proof.
  unfold _calculate_gains. rewrite on_cpu, is_dense.
  rewrite select_next_dense; auto.
  - cbn [ebind]. unfold isub_scalar. now rewrite map_map.
  - unfold zeros. apply repeat_length.
Qed.



End DensePath.


(** ** The sparse path of [_calculate_gains] *)






Lemma getitem_cons_succ {A} (x : A) l (n : nat) :
  getitem (x :: l) (Z.of_nat n + 1) = getitem l (Z.of_nat n).
Proof.
  unfold getitem. cbn [length].
  destruct (Z.ltb_spec (Z.of_nat n + 1) 0); [lia|].
  destruct (Z.ltb_spec (Z.of_nat n) 0); [lia|].
  replace (Z.to_nat (Z.of_nat n + 1)) with (S n) by lia.
  rewrite Nat2Z.id. cbn [nth_error].
  destruct (Z.leb_spec 0 (Z.of_nat n + 1)); [|lia].
  destruct (Z.leb_spec 0 (Z.of_nat n)); [|lia].
  destruct (Z.ltb_spec (Z.of_nat n + 1) (Z.of_nat (S (length l))));
    destruct (Z.ltb_spec (Z.of_nat n) (Z.of_nat (length l))); try lia; reflexivity.
Qed.

Lemma stored_cons r m : stored (r :: m) = (length (nonzeros 0 r) + stored m)%nat.
Proof. unfold stored. cbn [map concat]. now rewrite length_app, length_map. Qed.

Lemma stored_indices m :
  length (concat (map (fun r => map fst (nonzeros 0 r)) m)) = stored m.
Proof.
  induction m as [|r m IH]; [reflexivity|].
  rewrite stored_cons. cbn [map concat]. now rewrite length_app, length_map, IH.
Qed.

Lemma row_starts_at m1 : forall start r m2,
  getitem (row_starts start (m1 ++ r :: m2)) (Z.of_nat (length m1))
    = Ok (start + Z.of_nat (stored m1))%Z /\
  getitem (row_starts start (m1 ++ r :: m2)) (Z.of_nat (length m1) + 1)
    = Ok (start + Z.of_nat (stored m1) + Z.of_nat (length (nonzeros 0 r)))%Z.
Proof.
  induction m1 as [|r1 m1 IH]; intros start r m2.
  - cbn [app length row_starts]. split.
    + cbn. f_equal. unfold stored. cbn. lia.
    + change (Z.of_nat 0 + 1)%Z with (Z.of_nat 0 + 1)%Z.
      rewrite getitem_cons_succ.
      destruct m2; cbn; f_equal; unfold stored; cbn; lia.
  - cbn [app length row_starts].
    destruct (IH (start + Z.of_nat (length (nonzeros 0 r1)))%Z r m2) as [E1 E2].
    rewrite stored_cons. split.
    + replace (Z.of_nat (S (length m1))) with (Z.of_nat (length m1) + 1)%Z by lia.
      rewrite getitem_cons_succ, E1. f_equal. lia.
    + replace (Z.of_nat (S (length m1)) + 1)%Z
        with (Z.of_nat (S (length m1)) + 1)%Z by lia.
      rewrite getitem_cons_succ.
      replace (Z.of_nat (S (length m1))) with (Z.of_nat (length m1) + 1)%Z by lia.
      rewrite E2. f_equal. lia.
Qed.








(** ** The scenario, evaluated *)

(** C3.  With the matrix of the scenario, a zero coverage vector and the
    candidates 0..3 the gains are [8, 6, 5, 9]; committing row 3 makes the
    coverage vector [2, 0, 1, 6]; the gains of the candidates 0, 1, 2 in the
    next round are [sum_k max(X[idx,k], [2,0,1,6][k]) - 9], that is
    [4, 4, 3]. *)
Theorem concrete_scenario :
  let self0 := fresh false (zeros 4) [0; 1; 2; 3]%Z in
  let self1 := after (_select_next (DenseRow (row_at X4 3)) 9 3%Z self0) in
  _calculate_gains (Dense X4) self0 = Ok [8; 6; 5; 9] /\
  outcome (_select_next (DenseRow (row_at X4 3)) 9 3%Z self0) = Ok tt /\
  current_values self1 = [2; 0; 1; 6] /\
  _calculate_gains (Dense X4) (set_idxs [0; 1; 2]%Z self1) =
    Ok (map (fun idx => sum (zip_with Qmax (row_at X4 idx) [2; 0; 1; 6]) - 9)
            [0; 1; 2]%Z) /\
  _calculate_gains (Dense X4) (set_idxs [0; 1; 2]%Z self1) = Ok [4; 4; 3].
Proof. cbv zeta. repeat split; vm_compute; reflexivity. Qed.

(** C1.  In the second round of the scenario the two backends disagree: on
    the dense matrix the gains of the candidates 0, 1, 2 are [4, 4, 3], on
    its CSR encoding with the zeros dropped they are [3, -2, 1].  All
    entries of the matrix and of the coverage vector are nonnegative. *)
Theorem sparse_gains_differ_from_dense :
  Forall (Forall (fun x => 0 <= x)) X4 /\
  _calculate_gains (Dense X4) (fresh false cv3 [0; 1; 2]%Z) = Ok [4; 4; 3] /\
  _calculate_gains (Sparse (csr_of_dense X4)) (fresh true cv3 [0; 1; 2]%Z)
    = Ok [3; -2 # 1; 1] /\
  ~ Forall2 close [4; 4; 3] [3; -2 # 1; 1].
Proof.
  split; [|split; [|split]].
  - repeat constructor; discriminate.
  - vm_compute. reflexivity.
  - vm_compute. reflexivity.
  - intros H. inversion H as [|? ? ? ? Hc _]; subst. revert Hc. vm_compute.
    intros Hc. apply Hc. reflexivity.
Qed.

(** ** The initializer *)


(** The initializer looks at no entry of the matrix unless it folds a row
    in: without an initial subset it returns for every matrix. *)
Lemma initialize_without_subset (X : matrix) (self : Selection) :
  initial_subset self = None ->
  _initialize X self = (Ok tt, base_initialize X self).
Proof.
  intros Hs. unfold _initialize.
  cbn [base_initialize set_current_values initial_subset]. now rewrite Hs.
Qed.




(** ** The committer *)

Lemma maximum_idempotent r cv v :
  maximum r cv = Ok v -> maximum r v = Ok v.
Proof.
  unfold maximum. intros H.
  destruct (broadcast2_Ok _ _ _ _ H) as [[E ->]|[[E [x [-> ->]]]|[E [y [-> ->]]]]].
  - rewrite broadcast2_same_shape by now rewrite zip_with_length.
    f_equal. clear H. revert cv E.
    induction r as [|x r IH]; intros [|c cv] E; cbn [length] in E;
      try discriminate E; [reflexivity|].
    cbn [zip_with]. rewrite Qmax_absorb_l, IH; congruence.
  - unfold broadcast2. rewrite length_map.
    destruct (Nat.eqb_spec (length [x]) (length cv)); [contradiction|].
    f_equal. rewrite map_map. apply map_ext. intros c. apply Qmax_absorb_l.
  - rewrite broadcast2_same_shape by now rewrite length_map.
    f_equal. clear. induction r as [|x r IH]; [reflexivity|].
    cbn [map zip_with]. now rewrite Qmax_absorb_l, IH.
Qed.

Lemma select_next_returns X gain idx self v :
  committed_values X self = Ok v ->
  _select_next X gain idx self =
  (Ok tt, base_select_next X gain idx (set_current_values v self)).
Proof. unfold _select_next. now intros ->. Qed.

Lemma select_next_raises X gain idx self e :
  committed_values X self = Raise e ->
  _select_next X gain idx self = (Raise e, self).
Proof. unfold _select_next. now intros ->. Qed.

Lemma committed_values_idempotent X self self' v :
  committed_values X self = Ok v ->
  sparse self' = sparse self -> current_values self' = v ->
  committed_values X self' = Ok v.
Proof.
  unfold committed_values. intros H -> ->.
  destruct (committed_row (sparse self) X) as [r|e]; cbn [ebind] in *;
    [|discriminate].
  eapply maximum_idempotent; eassumption.
Qed.

(** C6.  A second [_select_next] with the row the first one folded in
    leaves [current_values] as the first call left it, on the dense and on
    the sparse path, whatever gain and index the calls record. *)
Theorem recommit_idempotent (X : row) (gain gain' : Q) (idx idx' : Z)
  (self : Selection) :
  let self1 := after (_select_next X gain idx self) in
  current_values (after (_select_next X gain' idx' self1)) = current_values self1.
Proof.
  cbv zeta.
  destruct (committed_values X self) as [v|e] eqn:E.
  - rewrite (select_next_returns X gain idx self v E). cbn [after snd].
    rewrite (select_next_returns X gain' idx' _ v); [reflexivity|].
    eapply committed_values_idempotent; [exact E| |]; reflexivity.
  - rewrite (select_next_raises X gain idx self e E). cbn [after snd].
    now rewrite (select_next_raises X gain' idx' self e E).
Qed.

(** ** Monotone coverage *)

Lemma Forall2_Qle_refl v : Forall2 Qle v v.
Proof. induction v; constructor; auto. apply Qle_refl. Qed.

Lemma Forall2_Qle_trans u v w :
  Forall2 Qle u v -> Forall2 Qle v w -> Forall2 Qle u w.
Proof.
  intros H. revert w. induction H as [|x y u v Hxy _ IH]; intros w Hw;
    inversion Hw; subst; constructor.
  - eapply Qle_trans; eauto.
  - now apply IH.
Qed.

Lemma maximum_monotone r cv v :
  length r = length cv -> maximum r cv = Ok v -> Forall2 Qle cv v.
Proof.
  intros E. unfold maximum. rewrite broadcast2_same_shape by exact E.
  intros [= <-]. revert cv E.
  induction r as [|x r IH]; intros [|c cv] E; cbn [length] in E;
    try discriminate E; cbn [zip_with]; constructor.
  - apply Qmax_ge_r.
  - apply IH. congruence.
Qed.



Lemma run_commits_step c calls self :
  exists tail,
    run_commits (c :: calls) self = self :: tail /\
    (tail = run_commits calls
              (after (_select_next (commit_row c) (commit_gain c) (commit_idx c) self))
     \/ tail = [after (_select_next (commit_row c) (commit_gain c) (commit_idx c) self)]).
Proof.
  cbn [run_commits].
  destruct (_select_next (commit_row c) (commit_gain c) (commit_idx c) self)
    as [[[]|e] self']; eexists; split; try reflexivity; cbn [after snd]; auto.
Qed.

Lemma run_commits_head calls self :
  exists tail, run_commits calls self = self :: tail.
Proof.
  destruct calls as [|c calls]; [now exists []|].
  destruct (run_commits_step c calls self) as [tail [E _]]. now exists tail.
Qed.











(** ** The GPU kernel *)

Lemma Qcompare_not_Lt (x y : Q) : Qcompare x y <> Lt -> y <= x.
Proof.
  intros H. destruct (Qcompare x y) eqn:E.
  - apply Qeq_alt in E. rewrite E. apply Qle_refl.
  - contradiction.
  - apply Qgt_alt in E. now apply Qlt_le_weak.
Qed.

Lemma argmax_from_spec (a p : list Q) (best : Q) (besti : nat) :
  (besti < length p)%nat ->
  nth besti p 0 = best ->
  (forall j y, nth_error p j = Some y ->
               y <= best /\ ((j < besti)%nat -> y < best)) ->
  is_argmax (p ++ a) (argmax_from best besti (length p) a).
Proof.
  revert p best besti. induction a as [|x a IH]; intros p best besti Hi Hb Hp.
  - cbn [argmax_from]. rewrite app_nil_r. split; [exact Hi|].
    intros j y Hj. rewrite Hb. now apply Hp.
  - cbn [argmax_from].
    replace (p ++ x :: a) with ((p ++ [x]) ++ a) by now rewrite <- app_assoc.
    replace (S (length p)) with (length (p ++ [x]))
      by (rewrite length_app; cbn; lia).
    destruct (Qcompare best x) eqn:E.
    + apply IH.
      * rewrite length_app. cbn. lia.
      * now rewrite app_nth1.
      * intros j y Hj.
        destruct (Nat.lt_ge_cases j (length p)) as [Hlt|Hge].
        -- rewrite nth_error_app1 in Hj by exact Hlt. now apply Hp.
        -- rewrite nth_error_app2 in Hj by exact Hge.
           destruct (j - length p)%nat as [|[|n]]; cbn in Hj; try discriminate.
           injection Hj as <-. split; [|lia].
           apply Qcompare_not_Lt. congruence.
    + apply Qlt_alt in E. apply IH.
      * rewrite length_app. cbn. lia.
      * rewrite app_nth2 by lia. now rewrite Nat.sub_diag.
      * intros j y Hj.
        destruct (Nat.lt_ge_cases j (length p)) as [Hlt|Hge].
        -- rewrite nth_error_app1 in Hj by exact Hlt.
           destruct (Hp j y Hj) as [Hle _].
           split; [|intros _]; lra.
        -- rewrite nth_error_app2 in Hj by exact Hge.
           destruct (j - length p)%nat as [|[|n]] eqn:En; cbn in Hj;
             try discriminate.
           injection Hj as <-. split; [apply Qle_refl|lia].
    + apply IH.
      * rewrite length_app. cbn. lia.
      * now rewrite app_nth1.
      * intros j y Hj.
        destruct (Nat.lt_ge_cases j (length p)) as [Hlt|Hge].
        -- rewrite nth_error_app1 in Hj by exact Hlt. now apply Hp.
        -- rewrite nth_error_app2 in Hj by exact Hge.
           destruct (j - length p)%nat as [|[|n]]; cbn in Hj; try discriminate.
           injection Hj as <-. split; [|lia].
           apply Qcompare_not_Lt. congruence.
Qed.

Lemma argmax_spec (a : list Q) :
  a <> [] -> exists best, argmax a = Ok (Z.of_nat best) /\ is_argmax a best.
Proof.
  destruct a as [|x a]; [congruence|intros _].
  eexists. split; [reflexivity|].
  apply (argmax_from_spec a [x] x 0%nat); [cbn; lia|reflexivity|].
  intros [|[|j]] y Hj; cbn in Hj; try discriminate.
  injection Hj as <-. split; [apply Qle_refl|lia].
Qed.


(** ** Gains and commits on the dense path *)


Lemma select_next_dense_commit v gain idx self :
  sparse self = false -> length v = length (current_values self) ->
  _select_next (DenseRow v) gain idx self =
  (Ok tt, base_select_next (DenseRow v) gain idx
            (set_current_values (zip_with Qmax v (current_values self)) self)).
Proof.
  intros Hs Hlen. apply select_next_returns.
  unfold committed_values. rewrite Hs. cbn [committed_row ebind].
  unfold maximum. now apply broadcast2_same_shape.
Qed.

Lemma excess_zero_iff r : forall cv,
  length r = length cv ->
  (sum (zip_with Qmax r cv) - sum cv == 0 <-> Forall2 Qle r cv).
Proof.
  induction r as [|x r IH]; intros [|c cv] E; cbn [length] in E;
    try discriminate E.
  - split; [constructor|]. intros _. cbn. lra.
  - injection E as E. cbn [zip_with]. rewrite !sum_cons.
    pose proof (sum_le_maximum r cv E) as Htail.
    pose proof (Qmax_ge_r x c) as Hhead.
    specialize (IH cv E). split.
    + intros H0.
      assert (Hx : Qmax x c == c) by lra.
      assert (Hr : sum (zip_with Qmax r cv) - sum cv == 0) by lra.
      constructor; [|now apply IH].
      rewrite <- Hx. apply Q.le_max_l.
    + intros H. inversion H as [|? ? ? ? Hxc Hrest]; subst.
      apply IH in Hrest. rewrite (Q.max_r x c Hxc). lra.
Qed.






(** ** The initializer, continued *)

Lemma fold_rows_length X l : forall cv,
  conforms X cv -> Forall (in_range X) l -> length (fold_rows X l cv) = length cv.
Proof.
  induction l as [|i l IH]; intros cv HX Hi; [reflexivity|].
  inversion Hi as [|? ? Hin Hrest]; subst. cbn [fold_rows fold_left].
  pose proof (conforms_row_at _ _ _ HX Hin) as Hr.
  fold (fold_rows X l (zip_with Qmax (row_at X i) cv)).
  rewrite IH; [now apply zip_with_length| |exact Hrest].
  unfold conforms in *. now rewrite zip_with_length.
Qed.

Lemma initialize_loop_folds X l : forall self,
  conforms X (current_values self) -> Forall (in_range X) l ->
  initialize_loop (dense_row (Dense X)) l self =
  (Ok tt, set_current_values (fold_rows X l (current_values self)) self).
Proof.
  induction l as [|i l IH]; intros self HX Hi.
  - cbn. destruct self; reflexivity.
  - inversion Hi as [|? ? Hin Hrest]; subst.
    pose proof (conforms_row_at _ _ _ HX Hin) as Hr.
    cbn [initialize_loop dense_row].
    rewrite (getitem_in_range X i [] Hin). cbn [ebind]. fold (row_at X i).
    unfold maximum. rewrite broadcast2_same_shape by exact Hr.
    rewrite IH; [reflexivity| |exact Hrest].
    cbn [set_current_values current_values].
    unfold conforms in *. now rewrite zip_with_length.
Qed.

Lemma rectangular_conforms X :
  rectangular (Dense X) -> conforms X (zeros (ncols (Dense X))).
Proof. intros H. unfold conforms, zeros. rewrite repeat_length. exact H. Qed.

Lemma initialize_dense_folds X l self :
  sparse self = false -> rectangular (Dense X) -> Forall (in_range X) l ->
  _initialize (Dense X) (with_subset (Subset1 l) self) =
  (Ok tt, set_current_values (fold_rows X l (zeros (ncols (Dense X))))
            (with_subset (Subset1 l) self)).
Proof.
  intros Hs HX Hi. unfold _initialize.
  cbn [base_initialize with_subset set_current_values initial_subset sparse ndim
       Nat.eqb subset_indices].
  rewrite Hs. cbn [negb].
  rewrite initialize_loop_folds; auto.
  now apply rectangular_conforms.
Qed.

Lemma Forall2_Qeq_refl v : Forall2 Qeq v v.
Proof. induction v; constructor; auto. reflexivity. Qed.

Lemma Forall2_Qeq_trans u v w :
  Forall2 Qeq u v -> Forall2 Qeq v w -> Forall2 Qeq u w.
Proof.
  intros H. revert w. induction H as [|x y u v Hxy _ IH]; intros w Hw;
    inversion Hw; subst; constructor.
  - now rewrite Hxy.
  - now apply IH.
Qed.

Lemma zip_max_compat r u v :
  Forall2 Qeq u v -> Forall2 Qeq (zip_with Qmax r u) (zip_with Qmax r v).
Proof.
  intros H. revert r. induction H as [|x y u v Hxy _ IH]; intros [|a r];
    cbn [zip_with]; constructor; auto.
  now rewrite Hxy.
Qed.

Lemma zip_max_swap a : forall b cv,
  Forall2 Qeq (zip_with Qmax a (zip_with Qmax b cv))
              (zip_with Qmax b (zip_with Qmax a cv)).
Proof.
  induction a as [|x a IH]; intros [|y b] [|c cv]; cbn [zip_with]; constructor.
  - rewrite !Q.max_assoc. now rewrite (Q.max_comm x y).
  - apply IH.
Qed.

Lemma fold_rows_compat X l : forall u v,
  Forall2 Qeq u v -> Forall2 Qeq (fold_rows X l u) (fold_rows X l v).
Proof.
  induction l as [|i l IH]; intros u v H; [exact H|].
  cbn [fold_rows fold_left]. apply IH. now apply zip_max_compat.
Qed.

Lemma fold_rows_permutation X l l' :
  Permutation l l' ->
  forall cv, Forall2 Qeq (fold_rows X l cv) (fold_rows X l' cv).
Proof.
  induction 1 as [|i l l' _ IH|i j l|l l' l'' _ IH1 _ IH2]; intros cv.
  - apply Forall2_Qeq_refl.
  - cbn [fold_rows fold_left]. apply IH.
  - cbn [fold_rows fold_left]. apply fold_rows_compat. apply zip_max_swap.
  - eapply Forall2_Qeq_trans; [apply IH1|apply IH2].
Qed.

(** X15.  The dense initializer returns for every order of the same
    in-range indices, and the coverage vectors it leaves are equal entry by
    entry. *)
Theorem initializer_order_independent (X : list (list Q)) (self : Selection)
  (l l' : list Z) :
  sparse self = false -> rectangular (Dense X) -> Forall (in_range X) l ->
  Permutation l l' ->
  outcome (_initialize (Dense X) (with_subset (Subset1 l) self)) = Ok tt /\
  outcome (_initialize (Dense X) (with_subset (Subset1 l') self)) = Ok tt /\
  Forall2 Qeq
    (current_values (after (_initialize (Dense X) (with_subset (Subset1 l) self))))
    (current_values (after (_initialize (Dense X) (with_subset (Subset1 l') self)))).
Proof.
  intros Hs HX Hi Hp.
  assert (Hi' : Forall (in_range X) l') by (eapply Permutation_Forall; eauto).
  rewrite !initialize_dense_folds by assumption.
  cbn [outcome after fst snd set_current_values current_values].
  repeat split. now apply fold_rows_permutation.
Qed.

Lemma last_nonempty {A} (l : list A) : forall x d d',
  last (x :: l) d = last (x :: l) d'.
Proof.
  induction l as [|y l IH]; intros x d d'; [reflexivity|].
  change (last (y :: l) d = last (y :: l) d'). apply IH.
Qed.

Lemma run_commits_folds X gain l : forall self,
  sparse self = false -> conforms X (current_values self) ->
  Forall (in_range X) l ->
  current_values (last (run_commits (commits_of X gain l) self) self) =
  fold_rows X l (current_values self).
Proof.
  induction l as [|i l IH]; intros self Hs HX Hi; [reflexivity|].
  inversion Hi as [|? ? Hin Hrest]; subst.
  pose proof (conforms_row_at _ _ _ HX Hin) as Hr.
  cbn [commits_of map run_commits commit_row commit_gain commit_idx].
  rewrite select_next_returns
    with (v := zip_with Qmax (row_at X i) (current_values self)).
  2:{ unfold committed_values. rewrite Hs. cbn [committed_row ebind].
      unfold maximum. now apply broadcast2_same_shape. }
  fold (commits_of X gain l).
  set (self1 := base_select_next _ _ _ _).
  destruct (run_commits_head (commits_of X gain l) self1) as [tail E].
  rewrite E.
  change (last (self :: self1 :: tail) self) with (last (self1 :: tail) self).
  rewrite (last_nonempty tail self1 self self1), <- E.
  rewrite IH; [reflexivity|exact Hs| |exact Hrest].
  subst self1. cbn [base_select_next set_current_values current_values].
  unfold conforms in *. now rewrite zip_with_length.
Qed.

(** X16.  The dense initializer leaves the coverage vector that committing
    the rows of the initial subset one by one, from the zero-filled vector,
    leaves. *)
Theorem initializer_is_a_run_of_commits (X : list (list Q)) (self : Selection)
  (l : list Z) (gain : Q) :
  sparse self = false -> rectangular (Dense X) -> Forall (in_range X) l ->
  current_values (after (_initialize (Dense X) (with_subset (Subset1 l) self))) =
  current_values
    (last (run_commits (commits_of X gain l) (base_initialize (Dense X) self))
          (base_initialize (Dense X) self)).
Proof.
  intros Hs HX Hi.
  rewrite initialize_dense_folds by assumption.
  rewrite run_commits_folds; auto.
  now apply rectangular_conforms.
Qed.

(** X13.  An initial subset whose number of dimensions is neither one nor
    two is rejected with the second [ValueError]; nothing is folded in. *)
Theorem other_dimensions_rejected (X : matrix) (self : Selection) (s : subset_array) :
  initial_subset self = Some s -> ndim s <> 1%nat -> ndim s <> 2%nat ->
  _initialize X self = (Raise (ValueError not_an_array), base_initialize X self).
Proof.
  intros Hs H1 H2. unfold _initialize.
  cbn [base_initialize set_current_values initial_subset]. rewrite Hs.
  destruct (Nat.eqb_spec (ndim s) 2); [contradiction|].
  destruct (Nat.eqb_spec (ndim s) 1); [contradiction|]. reflexivity.
Qed.




(** ** The cupy branch of [_calculate_gains] *)

Lemma select_next_cupy_gains X gains cv mask :
  X <> [] -> conforms X cv -> length gains = length X -> length mask = length X ->
  exists best,
    select_next_cupy X gains cv mask =
    Ok (zip_with (fun r m => sum (zip_with Qmax r cv) * inject_Z (1 - m)) X mask,
        best).
Proof.
  intros Hne HX Hg Hm.
  set (masked := zip_with (fun r m => sum (zip_with Qmax r cv) * inject_Z (1 - m))
                          X mask).
  assert (Hlen : length masked = length X).
  { subst masked. rewrite zip_with_length; congruence. }
  destruct (argmax_spec masked) as [best [Ha _]].
  { intros E. rewrite E in Hlen. destruct X; [congruence|discriminate]. }
  exists (Z.of_nat best). unfold select_next_cupy.
  rewrite (map_result_total _ (fun r => zip_with Qmax r cv)).
  2:{ eapply Forall_impl; [|exact HX]. cbv beta. intros r Hr.
      unfold maximum. now apply broadcast2_same_shape. }
  cbn [ebind].
  rewrite assign_slice_same_shape by (rewrite !length_map; congruence).
  cbn [ebind].
  rewrite broadcast2_same_shape by (rewrite !length_map; congruence).
  cbn [ebind]. rewrite map_map, zip_with_map_l. fold masked.
  rewrite assign_slice_same_shape by (rewrite Hlen, !length_map; reflexivity).
  cbn [ebind]. rewrite Ha. reflexivity.
Qed.



(** X12.  On the cupy branch the number of candidates has to be the number
    of rows: otherwise, unless the matrix has a single row, the assignment
    to [gains[:]] raises [ValueError]. *)
Theorem cupy_gains_need_every_row (X : list (list Q)) (self : Selection) :
  cupy self = true ->
  conforms X (current_values self) ->
  length (idxs self) <> length X -> length X <> 1%nat ->
  _calculate_gains (Dense X) self =
  Raise (ValueError "could not broadcast input array").
Proof.
  intros Hc HX Hlen H1. unfold _calculate_gains, select_next_cupy. rewrite Hc.
  rewrite (map_result_total _ (fun r => zip_with Qmax r (current_values self))).
  2:{ eapply Forall_impl; [|exact HX]. cbv beta. intros r Hr.
      unfold maximum. now apply broadcast2_same_shape. }
  cbn [ebind]. unfold assign_slice at 1.
  rewrite !length_map. unfold zeros at 1. rewrite repeat_length.
  destruct (Nat.eqb_spec (length X) (length (idxs self))); [congruence|].
  destruct X as [|r1 [|r2 X]]; cbn [map]; try reflexivity.
  cbn [length] in H1. congruence.
Qed.




(** X9.  For a matrix without a positive entry and a zero coverage vector
    every dense gain is zero. *)
Theorem nonpositive_matrix_gains_nothing (X : list (list Q)) (self : Selection) :
  cupy self = false -> sparse self = false ->
  Forall (fun x => x == 0) (current_values self) ->
  conforms X (current_values self) ->
  Forall (in_range X) (idxs self) ->
  Forall (Forall (fun x => x <= 0)) X ->
  exists g, _calculate_gains (Dense X) self = Ok g /\ Forall (fun x => x == 0) g.
Proof.
  intros Hc Hs Hz HX Hi Hneg. eexists. split.
  - apply calculate_gains_dense; assumption.
  - apply Forall_map. eapply Forall_impl; [|exact Hi].
    cbv beta. intros idx Hidx.
    pose proof (conforms_row_at _ _ _ HX Hidx) as Hr.
    apply excess_zero_iff; [exact Hr|].
    assert (Hrow : Forall (fun x => x <= 0) (row_at X idx)).
    { rewrite Forall_forall in Hneg. apply Hneg. apply nth_In.
      unfold in_range in Hidx. lia. }
    clear -Hrow Hz Hr. revert Hr Hz. generalize (current_values self).
    induction Hrow as [|x r Hx _ IH]; intros [|c cv] Hr Hz; cbn [length] in Hr;
      try discriminate Hr; constructor.
    + inversion Hz; subst. lra.
    + apply IH; [congruence|now inversion Hz].
Qed.

Lemma select_next_cupy_returns X gains cv mask :
  X <> [] -> conforms X cv -> length gains = length X -> length mask = length X ->
  exists best,
    select_next_cupy X gains cv mask =
    Ok (zip_with (fun r m => sum (zip_with Qmax r cv) * inject_Z (1 - m)) X mask,
        Z.of_nat best) /\
    is_argmax (zip_with (fun r m => sum (zip_with Qmax r cv) * inject_Z (1 - m))
                        X mask) best.
Proof.
  intros Hne HX Hg Hm.
  destruct (select_next_cupy_gains X gains cv mask Hne HX Hg Hm) as [z E].
  set (masked := zip_with (fun r m => sum (zip_with Qmax r cv) * inject_Z (1 - m))
                          X mask) in *.
  assert (Hlen : length masked = length X).
  { subst masked. rewrite zip_with_length; congruence. }
  destruct (argmax_spec masked) as [best [Ha Hbest]].
  { intros E0. rewrite E0 in Hlen. destruct X; [congruence|discriminate]. }
  exists best. split; [|exact Hbest].
  rewrite E. unfold select_next_cupy in E.
  destruct (map_result _ X) as [mx|]; cbn [ebind] in E; [|discriminate].
  destruct (assign_slice gains _) as [g1|]; cbn [ebind] in E; [|discriminate].
  destruct (broadcast2 _ g1 mask) as [p|]; cbn [ebind] in E; [|discriminate].
  destruct (assign_slice g1 p) as [g2|]; cbn [ebind] in E; [|discriminate].
  destruct (argmax g2) as [b|] eqn:Eb; cbn [ebind] in E; [|discriminate].
  injection E as E1 E2. subst g2 z. rewrite Ha in Eb. now injection Eb as <-.
Qed.

Lemma nth_zip_with {A B C} (f : A -> B -> C) (da : A) (db : B) (dc : C) a :
  forall b n, length a = length b -> (n < length a)%nat ->
  nth n (zip_with f a b) dc = f (nth n a da) (nth n b db).
Proof.
  induction a as [|x a IH]; intros [|y b] n E Hn; cbn [length] in *;
    try discriminate E; try lia.
  destruct n as [|n]; cbn [zip_with nth]; [reflexivity|].
  apply IH; [congruence|lia].
Qed.

(** X21.  With a 0/1 mask, if some row that is not masked has a positive
    sum of maxima, the index [select_next_cupy] returns is the index of a
    row that is not masked. *)
Theorem cupy_kernel_skips_selected_rows (X : list (list Q))
  (gains current_values : list Q) (mask : list Z) (j : nat) :
  conforms X current_values ->
  length gains = length X -> length mask = length X ->
  Forall (fun m => m = 0 \/ m = 1)%Z mask ->
  (j < length X)%nat -> nth j mask 1%Z = 0%Z ->
  0 < sum (zip_with Qmax (nth j X []) current_values) ->
  exists g best,
    select_next_cupy X gains current_values mask = Ok (g, Z.of_nat best) /\
    (best < length X)%nat /\ nth best mask 1%Z = 0%Z.
Proof.
  intros HX Hg Hm H01 Hj Hmj Hpos.
  assert (Hne : X <> []) by (destruct X; [cbn in Hj; lia|discriminate]).
  destruct (select_next_cupy_returns X gains current_values mask Hne HX Hg Hm)
    as [best [E [Hb Hmax]]].
  set (f := fun r m => sum (zip_with Qmax r current_values) * inject_Z (1 - m)) in *.
  assert (Hlen : length (zip_with f X mask) = length X)
    by (rewrite zip_with_length; congruence).
  rewrite Hlen in Hb.
  do 2 eexists. split; [exact E|]. split; [exact Hb|].
  assert (Hnj : nth_error (zip_with f X mask) j
                = Some (nth j (zip_with f X mask) 0)).
  { apply nth_error_nth'. lia. }
  destruct (Hmax _ _ Hnj) as [Hle _].
  rewrite (nth_zip_with f [] 1%Z 0 X mask j) in Hle by (auto; congruence).
  rewrite (nth_zip_with f [] 1%Z 0 X mask best) in Hle by (auto; congruence).
  subst f. cbv beta in Hle. rewrite Hmj in Hle.
  assert (Hin : In (nth best mask 1%Z) mask) by (apply nth_In; lia).
  rewrite Forall_forall in H01. destruct (H01 _ Hin) as [H0|H1]; [exact H0|].
  exfalso. rewrite H1 in Hle.
  change (inject_Z (1 - 1)) with 0 in Hle. change (inject_Z (1 - 0)) with 1 in Hle.
  lra.
Qed.

(** ** Rows of the encoding, made dense again *)

Lemma slice_middle {A} (pre mid post : list A) :
  slice (pre ++ mid ++ post) (Z.of_nat (length pre))
        (Z.of_nat (length pre) + Z.of_nat (length mid)) = mid.
Proof.
  unfold slice. rewrite Nat2Z.id.
  replace (Z.to_nat (Z.of_nat (length pre) + Z.of_nat (length mid)
                     - Z.of_nat (length pre))) with (length mid) by lia.
  rewrite skipn_app, skipn_all, Nat.sub_diag. cbn [app skipn].
  rewrite firstn_app, firstn_all, Nat.sub_diag. cbn [firstn]. apply app_nil_r.
Qed.

Lemma csr_getrow_encoding X idx :
  in_range X idx -> csr_getrow (csr_of_dense X) idx = Ok (encoded_row X idx).
Proof.
  intros Hi. unfold in_range in Hi.
  destruct (nth_split X [] (n := Z.to_nat idx)) as (m1 & m2 & E & Hl); [lia|].
  unfold encoded_row. cbv zeta.
  fold (row_at X idx) in E. remember (row_at X idx) as r eqn:Heqr. clear Heqr.
  assert (Hn : ncols (Dense X) = snd (shape (csr_of_dense X))) by reflexivity.
  rewrite Hn. clear Hn.
  unfold csr_getrow.
  assert (Hrows : fst (shape (csr_of_dense X)) = length X) by reflexivity.
  rewrite Hrows.
  destruct (Z.ltb_spec idx 0); [lia|].
  destruct (Z.leb_spec 0 idx); [|lia].
  destruct (Z.ltb_spec idx (Z.of_nat (length X))); [|lia].
  cbn [andb].
  replace idx with (Z.of_nat (length m1)) by lia.
  generalize (snd (shape (csr_of_dense X))). intros d.
  clear Hrows Hi Hl. subst X.
  unfold csr_of_dense. cbn [data indices indptr].
  destruct (row_starts_at m1 0%Z r m2) as [-> ->]. cbn [ebind].
  rewrite !map_app, !concat_app. cbn [map concat].
  f_equal. f_equal.
  - replace (0 + Z.of_nat (stored m1))%Z
      with (Z.of_nat (length (concat (map (fun r => map snd (nonzeros 0 r)) m1))))
      by (unfold stored; lia).
    replace (Z.of_nat (length (nonzeros 0 r)))
      with (Z.of_nat (length (map snd (nonzeros 0 r)))) by now rewrite length_map.
    apply slice_middle.
  - replace (0 + Z.of_nat (stored m1))%Z
      with (Z.of_nat (length (concat (map (fun r => map fst (nonzeros 0 r)) m1))))
      by (rewrite stored_indices; lia).
    replace (Z.of_nat (length (nonzeros 0 r)))
      with (Z.of_nat (length (map fst (nonzeros 0 r)))) by now rewrite length_map.
    apply slice_middle.
  - f_equal. f_equal. lia.
Qed.

Lemma combine_fst_snd {A B} (l : list (A * B)) :
  combine (map fst l) (map snd l) = l.
Proof. induction l as [|[a b] l IH]; cbn; [reflexivity|now rewrite IH]. Qed.

Lemma add_at_middle pre y post x :
  add_at (length pre) x (pre ++ y :: post) = pre ++ (y + x) :: post.
Proof. induction pre as [|p pre IH]; cbn; [reflexivity|now rewrite IH]. Qed.

Lemma scatter_fold r : forall pre,
  exists r',
    fold_left (fun v (kx : Z * Q) => if (fst kx <? 0)%Z then v
                 else add_at (Z.to_nat (fst kx)) (snd kx) v)
              (nonzeros (Z.of_nat (length pre)) r) (pre ++ zeros (length r))
    = pre ++ r' /\
    Forall2 Qeq r' r.
Proof.
  induction r as [|x r IH]; intros pre.
  - exists []. split; [reflexivity|constructor].
  - cbn [nonzeros length zeros repeat]. fold (zeros (length r)).
    replace (Z.of_nat (length pre) + 1)%Z with (Z.of_nat (length (pre ++ [0])))
      by (rewrite length_app; cbn; lia).
    destruct (Qeq_bool x 0) eqn:Ex.
    + destruct (IH (pre ++ [0])) as [r' [E Hr']].
      exists (0 :: r'). split.
      * rewrite <- app_assoc in E. cbn [app] in E. rewrite E.
        now rewrite <- app_assoc.
      * constructor; [|exact Hr']. apply Qeq_bool_eq in Ex. now rewrite Ex.
    + cbn [fold_left fst snd].
      destruct (Z.ltb_spec (Z.of_nat (length pre)) 0); [lia|].
      rewrite Nat2Z.id, add_at_middle.
      replace (length (pre ++ [0])) with (length (pre ++ [0 + x]))
        by (rewrite !length_app; reflexivity).
      destruct (IH (pre ++ [0 + x])) as [r' [E Hr']].
      exists ((0 + x) :: r'). split.
      * rewrite <- app_assoc in E. cbn [app] in E. rewrite E.
        now rewrite <- app_assoc.
      * constructor; [lra|exact Hr'].
Qed.

Lemma toarray_encoded_row X idx :
  length (row_at X idx) = ncols (Dense X) ->
  exists r',
    getitem (toarray (encoded_row X idx)) 0 = Ok r' /\
    Forall2 Qeq r' (row_at X idx).
Proof.
  intros Hlen. unfold toarray, encoded_row. cbv zeta.
  cbn [shape fst snd seq map indptr nth data indices].
  unfold slice. cbn [Z.to_nat skipn]. rewrite Z.sub_0_r, Nat2Z.id.
  rewrite !firstn_all2 by (rewrite length_map; lia).
  unfold scatter. rewrite combine_fst_snd, <- Hlen.
  destruct (scatter_fold (row_at X idx) []) as [r' [E Hr']].
  cbn [length app] in E. change (Z.of_nat 0) with 0%Z in E. rewrite E.
  exists r'. split; [reflexivity|exact Hr'].
Qed.

Lemma zip_max_compat2 r r' : forall u v,
  Forall2 Qeq r' r -> Forall2 Qeq u v ->
  Forall2 Qeq (zip_with Qmax r' u) (zip_with Qmax r v).
Proof.
  intros u v H. revert u v. induction H as [|x y r' r Hxy _ IH];
    intros u v Huv; inversion Huv; subst; cbn [zip_with]; constructor; auto.
  now rewrite Hxy, H.
Qed.

(** X19.  Committing row [idx] of the CSR encoding on the sparse path and
    row [idx] of the dense matrix on the dense path leave coverage vectors
    that are equal entry by entry. *)
Theorem sparse_commit_agrees_with_dense (X : list (list Q))
  (dense_self sparse_self : Selection) (idx : Z) (gain : Q) :
  sparse dense_self = false -> sparse sparse_self = true ->
  current_values sparse_self = current_values dense_self ->
  rectangular (Dense X) -> in_range X idx ->
  length (current_values dense_self) = ncols (Dense X) ->
  exists c,
    csr_getrow (csr_of_dense X) idx = Ok c /\
    outcome (_select_next (SparseRow c) gain idx sparse_self) = Ok tt /\
    outcome (_select_next (DenseRow (row_at X idx)) gain idx dense_self) = Ok tt /\
    Forall2 Qeq
      (current_values (after (_select_next (SparseRow c) gain idx sparse_self)))
      (current_values
         (after (_select_next (DenseRow (row_at X idx)) gain idx dense_self))).
Proof.
  intros Hsd Hss Hcv HX Hi Hlen.
  assert (Hr : length (row_at X idx) = ncols (Dense X)).
  { cbn [rectangular] in HX. rewrite Forall_forall in HX. apply HX.
    apply nth_In. unfold in_range in Hi. lia. }
  exists (encoded_row X idx). split; [now apply csr_getrow_encoding|].
  destruct (toarray_encoded_row X idx Hr) as [r' [E Hr']].
  rewrite select_next_dense_commit by congruence.
  rewrite (select_next_returns _ _ _ _
             (zip_with Qmax r' (current_values sparse_self))).
  2:{ unfold committed_values. rewrite Hss. cbn [committed_row]. rewrite E.
      cbn [ebind]. unfold maximum. apply broadcast2_same_shape.
      rewrite (Forall2_length Hr'). congruence. }
  cbn [outcome after fst snd base_select_next set_current_values current_values].
  repeat split. rewrite Hcv.
  apply zip_max_compat2; [exact Hr'|apply Forall2_Qeq_refl].
Qed.

Lemma sparse_loop_agrees X l : forall self u,
  rectangular (Dense X) -> Forall (in_range X) l ->
  length u = ncols (Dense X) -> Forall2 Qeq (current_values self) u ->
  exists v,
    initialize_loop (sparse_row_dense (Sparse (csr_of_dense X))) l self
      = (Ok tt, set_current_values v self) /\
    Forall2 Qeq v (fold_rows X l u).
Proof.
  induction l as [|i l IH]; intros self u HX Hi Hu Hcv.
  - exists (current_values self). split; [destruct self; reflexivity|exact Hcv].
  - inversion Hi as [|? ? Hin Hrest]; subst.
    assert (Hr : length (row_at X i) = ncols (Dense X)).
    { cbn [rectangular] in HX. rewrite Forall_forall in HX. apply HX.
      apply nth_In. unfold in_range in Hin. lia. }
    destruct (toarray_encoded_row X i Hr) as [r' [E Hr']].
    cbn [initialize_loop sparse_row_dense].
    rewrite (csr_getrow_encoding X i Hin). cbn [ebind]. rewrite E. cbn [ebind].
    unfold maximum. rewrite broadcast2_same_shape.
    2:{ rewrite (Forall2_length Hr'), (Forall2_length Hcv). congruence. }
    destruct (IH (set_current_values (zip_with Qmax r' (current_values self)) self)
                 (zip_with Qmax (row_at X i) u)) as [v [Ev Hv]]; auto.
    + rewrite zip_with_length; congruence.
    + cbn [set_current_values current_values]. now apply zip_max_compat2.
    + exists v. split; [rewrite Ev; reflexivity|exact Hv].
Qed.

(** X18.  The sparse initializer on the CSR encoding and the dense
    initializer on the matrix both return, with coverage vectors that are
    equal entry by entry. *)
Theorem sparse_initializer_agrees_with_dense (X : list (list Q))
  (dense_self sparse_self : Selection) (l : list Z) :
  sparse dense_self = false -> sparse sparse_self = true ->
  rectangular (Dense X) -> Forall (in_range X) l ->
  outcome (_initialize (Sparse (csr_of_dense X))
             (with_subset (Subset1 l) sparse_self)) = Ok tt /\
  outcome (_initialize (Dense X) (with_subset (Subset1 l) dense_self)) = Ok tt /\
  Forall2 Qeq
    (current_values (after (_initialize (Sparse (csr_of_dense X))
                              (with_subset (Subset1 l) sparse_self))))
    (current_values (after (_initialize (Dense X)
                              (with_subset (Subset1 l) dense_self)))).
Proof.
  intros Hsd Hss HX Hi.
  rewrite (initialize_dense_folds X l dense_self Hsd HX Hi).
  unfold _initialize.
  cbn [base_initialize with_subset set_current_values initial_subset sparse ndim
       Nat.eqb subset_indices].
  rewrite Hss. cbn [negb].
  match goal with
  | |- context [initialize_loop _ l ?s] =>
      destruct (sparse_loop_agrees X l s (zeros (ncols (Dense X))) HX Hi)
        as [v [E Hv]]
  end.
  - apply repeat_length.
  - cbn [current_values ncols csr_of_dense shape snd]. apply Forall2_Qeq_refl.
  - rewrite E.
    cbn [outcome after fst snd set_current_values current_values].
    repeat split. exact Hv.
Qed.

Lemma fold_rows_above_start X l : forall cv,
  conforms X cv -> Forall (in_range X) l -> Forall2 Qle cv (fold_rows X l cv).
Proof.
  induction l as [|i l IH]; intros cv HX Hi; [apply Forall2_Qle_refl|].
  inversion Hi as [|? ? Hin Hrest]; subst.
  pose proof (conforms_row_at _ _ _ HX Hin) as Hr.
  cbn [fold_rows fold_left].
  eapply Forall2_Qle_trans; [|apply IH; [|exact Hrest]].
  - eapply maximum_monotone; [exact Hr|]. unfold maximum.
    now apply broadcast2_same_shape.
  - unfold conforms in *. now rewrite zip_with_length.
Qed.

Lemma zip_max_above_row r : forall cv,
  length r = length cv -> Forall2 Qle r (zip_with Qmax r cv).
Proof.
  induction r as [|x r IH]; intros [|c cv] E; cbn [length] in E;
    try discriminate E; cbn [zip_with]; constructor.
  - apply Q.le_max_l.
  - apply IH. congruence.
Qed.

Lemma fold_rows_above_rows X l : forall cv,
  conforms X cv -> Forall (in_range X) l ->
  Forall (fun i => Forall2 Qle (row_at X i) (fold_rows X l cv)) l.
Proof.
  induction l as [|i l IH]; intros cv HX Hi; [constructor|].
  inversion Hi as [|? ? Hin Hrest]; subst.
  pose proof (conforms_row_at _ _ _ HX Hin) as Hr.
  assert (HX1 : conforms X (zip_with Qmax (row_at X i) cv)).
  { unfold conforms in *. now rewrite zip_with_length. }
  cbn [fold_rows fold_left]. constructor.
  - eapply Forall2_Qle_trans; [apply zip_max_above_row; exact Hr|].
    now apply fold_rows_above_start.
  - now apply IH.
Qed.

(** X17.  After the dense initializer, every row of the initial subset is
    entry by entry at most the coverage vector. *)
Theorem coverage_dominates_initial_subset (X : list (list Q)) (self : Selection)
  (l : list Z) :
  sparse self = false -> rectangular (Dense X) -> Forall (in_range X) l ->
  Forall (fun i =>
            Forall2 Qle (row_at X i)
              (current_values
                 (after (_initialize (Dense X) (with_subset (Subset1 l) self)))))
         l.
Proof.
  intros Hs HX Hi. rewrite initialize_dense_folds by assumption.
  cbn [after snd set_current_values current_values].
  apply fold_rows_above_rows; [now apply rectangular_conforms|exact Hi].
Qed.

(** X20.  Committing the rows of the same indices in another order leaves
    a coverage vector that is equal entry by entry. *)
Theorem commits_order_independent (X : list (list Q)) (self : Selection)
  (l l' : list Z) (gain : Q) :
  sparse self = false -> conforms X (current_values self) ->
  Forall (in_range X) l -> Permutation l l' ->
  Forall2 Qeq
    (current_values (last (run_commits (commits_of X gain l) self) self))
    (current_values (last (run_commits (commits_of X gain l') self) self)).
Proof.
  intros Hs HX Hi Hp.
  assert (Hi' : Forall (in_range X) l') by (eapply Permutation_Forall; eauto).
  rewrite !run_commits_folds by assumption.
  now apply fold_rows_permutation.
Qed.

(** ** Batches of candidates *)

Lemma select_next_app X cv l1 : forall l2 ga gb r1 r2,
  length ga = length l1 ->
  select_next X ga cv l1 = Ok r1 ->
  select_next X gb cv l2 = Ok r2 ->
  select_next X (ga ++ gb) cv (l1 ++ l2) = Ok (r1 ++ r2).
Proof.
  induction l1 as [|i l1 IH]; intros l2 [|g ga] gb r1 r2 Hlen H1 H2;
    cbn [length] in Hlen; try discriminate Hlen.
  - cbn in H1. injection H1 as <-. exact H2.
  - cbn [app select_next] in *.
    destruct (getitem X i) as [r|]; cbn [ebind] in *; [|discriminate].
    destruct (maximum r cv) as [m|]; cbn [ebind] in *; [|discriminate].
    destruct (select_next X ga cv l1) as [rest|] eqn:E; cbn [ebind] in *;
      [|discriminate].
    injection H1 as <-.
    rewrite (IH l2 ga gb rest r2); auto.
Qed.

Lemma select_next_sparse_app D I P cv l1 : forall l2 ga gb r1 r2,
  length ga = length l1 ->
  select_next_sparse D I P ga cv l1 = Ok r1 ->
  select_next_sparse D I P gb cv l2 = Ok r2 ->
  select_next_sparse D I P (ga ++ gb) cv (l1 ++ l2) = Ok (r1 ++ r2).
Proof.
  induction l1 as [|i l1 IH]; intros l2 [|g ga] gb r1 r2 Hlen H1 H2;
    cbn [length] in Hlen; try discriminate Hlen.
  - cbn in H1. injection H1 as <-. exact H2.
  - cbn [app select_next_sparse] in *.
    destruct (getitem P i) as [s|]; cbn [ebind] in *; [|discriminate].
    destruct (getitem P (i + 1)) as [e|]; cbn [ebind] in *; [|discriminate].
    destruct (sparse_row D I cv s _ g) as [g'|]; cbn [ebind] in *; [|discriminate].
    destruct (select_next_sparse D I P ga cv l1) as [rest|] eqn:E;
      cbn [ebind] in *; [|discriminate].
    injection H1 as <-.
    rewrite (IH l2 ga gb rest r2); auto.
Qed.

(** X10.  On the CPU paths the gains of a concatenated list of candidates
    are the gains of the two lists, concatenated: the gain of a candidate
    does not depend on the batch it is computed in. *)
Theorem gains_of_batches_concatenate (X : matrix) (self : Selection)
  (l1 l2 : list Z) (g1 g2 : list Q) :
  cupy self = false ->
  _calculate_gains X (set_idxs l1 self) = Ok g1 ->
  _calculate_gains X (set_idxs l2 self) = Ok g2 ->
  _calculate_gains X (set_idxs (l1 ++ l2) self) = Ok (g1 ++ g2).
Proof.
  unfold _calculate_gains.
  cbn [set_idxs cupy sparse idxs current_values]. intros -> H1 H2.
  rewrite length_app. unfold zeros in *. rewrite repeat_app.
  destruct (sparse self); destruct X as [m|c]; try discriminate.
  - destruct (select_next_sparse _ _ _ _ _ l1) as [r1|] eqn:E1; cbn [ebind] in H1;
      [|discriminate].
    destruct (select_next_sparse _ _ _ _ _ l2) as [r2|] eqn:E2; cbn [ebind] in H2;
      [|discriminate].
    rewrite (select_next_sparse_app _ _ _ _ _ _ _ _ _ _ (repeat_length _ _) E1 E2).
    cbn [ebind]. injection H1 as <-. injection H2 as <-.
    unfold isub_scalar. now rewrite map_app.
  - destruct (select_next m _ _ l1) as [r1|] eqn:E1; cbn [ebind] in H1;
      [|discriminate].
    destruct (select_next m _ _ l2) as [r2|] eqn:E2; cbn [ebind] in H2;
      [|discriminate].
    rewrite (select_next_app _ _ _ _ _ _ _ _ (repeat_length _ _) E1 E2).
    cbn [ebind]. injection H1 as <-. injection H2 as <-.
    unfold isub_scalar. now rewrite map_app.
Qed.

(** ** The sparse gain, stated on its own *)


(** ** The theorems at the scenario *)

Ltac all_in_range :=
  repeat (constructor; [unfold in_range; cbn; lia|]); constructor.

Lemma X4_conforms : conforms X4 cv3.
Proof. repeat constructor. Defined.









(** ** Further instances at the scenario *)

Ltac one_in_range := unfold in_range; cbn; lia.

Lemma X4_rectangular : rectangular (Dense X4).
Proof. repeat constructor. Defined.










Lemma nonpositive_matrix_gains_nothing_at_distances :
  exists g,
    _calculate_gains (Dense negated_distances) (fresh false (zeros 2) [0; 1]%Z) = Ok g /\
    Forall (fun x => x == 0) g.
Proof.
  apply (nonpositive_matrix_gains_nothing negated_distances
           (fresh false (zeros 2) [0; 1]%Z));
    [reflexivity|reflexivity|repeat (constructor; [reflexivity|]); constructor
    |repeat constructor|all_in_range|repeat constructor; discriminate].
Defined.

Lemma gains_of_batches_concatenate_at_scenario :
  _calculate_gains (Dense X4) (set_idxs ([0%Z] ++ [1; 2]%Z) dense3)
  = Ok ([4] ++ [4; 3]).
Proof.
  apply (gains_of_batches_concatenate (Dense X4) dense3 [0%Z] [1; 2]%Z [4] [4; 3]);
    reflexivity.
Defined.


Lemma cupy_gains_need_every_row_at_scenario :
  _calculate_gains (Dense X4) (on_gpu [0; 1; 2]%Z) =
  Raise (ValueError "could not broadcast input array").
Proof.
  apply (cupy_gains_need_every_row X4 (on_gpu [0; 1; 2]%Z));
    [reflexivity|exact X4_conforms|discriminate|discriminate].
Defined.

Lemma other_dimensions_rejected_at_scenario :
  _initialize (Dense X4) (with_subset (Subset0 3%Z) dense3) =
  (Raise (ValueError not_an_array),
   base_initialize (Dense X4) (with_subset (Subset0 3%Z) dense3)).
Proof.
  apply (other_dimensions_rejected (Dense X4) _ (Subset0 3%Z));
    [reflexivity|discriminate|discriminate].
Defined.


Lemma initializer_order_independent_at_scenario :
  outcome (_initialize (Dense X4) (with_subset (Subset1 [3; 0]%Z) dense3)) = Ok tt /\
  outcome (_initialize (Dense X4) (with_subset (Subset1 [0; 3]%Z) dense3)) = Ok tt /\
  Forall2 Qeq
    (current_values (after (_initialize (Dense X4) (with_subset (Subset1 [3; 0]%Z) dense3))))
    (current_values (after (_initialize (Dense X4) (with_subset (Subset1 [0; 3]%Z) dense3)))).
Proof.
  apply (initializer_order_independent X4 dense3 [3; 0]%Z [0; 3]%Z);
    [reflexivity|exact X4_rectangular|all_in_range|apply perm_swap].
Defined.

Lemma initializer_is_a_run_of_commits_at_scenario :
  current_values (after (_initialize (Dense X4) (with_subset (Subset1 [3; 0]%Z) dense3))) =
  current_values
    (last (run_commits (commits_of X4 0 [3; 0]%Z) (base_initialize (Dense X4) dense3))
          (base_initialize (Dense X4) dense3)).
Proof.
  apply (initializer_is_a_run_of_commits X4 dense3 [3; 0]%Z 0);
    [reflexivity|exact X4_rectangular|all_in_range].
Defined.

Lemma coverage_dominates_initial_subset_at_scenario :
  Forall (fun i =>
            Forall2 Qle (row_at X4 i)
              (current_values
                 (after (_initialize (Dense X4) (with_subset (Subset1 [3; 0]%Z) dense3)))))
         [3; 0]%Z.
Proof.
  apply (coverage_dominates_initial_subset X4 dense3 [3; 0]%Z);
    [reflexivity|exact X4_rectangular|all_in_range].
Defined.

Lemma sparse_initializer_agrees_with_dense_at_scenario :
  outcome (_initialize (Sparse (csr_of_dense X4))
             (with_subset (Subset1 [3; 0]%Z) sparse3)) = Ok tt /\
  outcome (_initialize (Dense X4) (with_subset (Subset1 [3; 0]%Z) dense3)) = Ok tt /\
  Forall2 Qeq
    (current_values (after (_initialize (Sparse (csr_of_dense X4))
                              (with_subset (Subset1 [3; 0]%Z) sparse3))))
    (current_values (after (_initialize (Dense X4)
                              (with_subset (Subset1 [3; 0]%Z) dense3)))).
Proof.
  apply (sparse_initializer_agrees_with_dense X4 dense3 sparse3 [3; 0]%Z);
    [reflexivity|reflexivity|exact X4_rectangular|all_in_range].
Defined.

Lemma sparse_commit_agrees_with_dense_at_scenario :
  exists c,
    csr_getrow (csr_of_dense X4) 0 = Ok c /\
    outcome (_select_next (SparseRow c) 4 0%Z sparse3) = Ok tt /\
    outcome (_select_next (DenseRow (row_at X4 0)) 4 0%Z dense3) = Ok tt /\
    Forall2 Qeq
      (current_values (after (_select_next (SparseRow c) 4 0%Z sparse3)))
      (current_values (after (_select_next (DenseRow (row_at X4 0)) 4 0%Z dense3))).
Proof.
  apply (sparse_commit_agrees_with_dense X4 dense3 sparse3 0%Z 4);
    [reflexivity|reflexivity|reflexivity|exact X4_rectangular|one_in_range
    |reflexivity].
Defined.

Lemma commits_order_independent_at_scenario :
  Forall2 Qeq
    (current_values (last (run_commits (commits_of X4 0 [3; 0]%Z) dense3) dense3))
    (current_values (last (run_commits (commits_of X4 0 [0; 3]%Z) dense3) dense3)).
Proof.
  apply (commits_order_independent X4 dense3 [3; 0]%Z [0; 3]%Z 0);
    [reflexivity|exact X4_conforms|all_in_range|apply perm_swap].
Defined.

Lemma cupy_kernel_skips_selected_rows_at_scenario :
  exists g best,
    select_next_cupy X4 (zeros 4) cv3 [0; 0; 0; 1]%Z = Ok (g, Z.of_nat best) /\
    (best < length X4)%nat /\ nth best [0; 0; 0; 1]%Z 1%Z = 0%Z.
Proof.
  apply (cupy_kernel_skips_selected_rows X4 (zeros 4) cv3 [0; 0; 0; 1]%Z 0%nat);
    [exact X4_conforms|reflexivity|reflexivity| |cbn; lia|reflexivity
    |vm_compute; reflexivity].
  repeat (constructor; [(left; reflexivity) || (right; reflexivity)|]).
  constructor.
Defined.
